(** * Scheduler extender: image-locality priority and its HTTP route

    A shallow embedding of [cmd/main.go]: the flag normalisation of [init],
    the scoring function [nodeHasImage], the registered priority method
    [ImagePriority], the request handler built by [PrioritizeRoute] and the
    route registration of [AddPrioritizeFunc] and [main].

    Go strings are byte sequences and are modelled by [string]; the [uint32]
    counter of [nodeHasImage] is a [Z] reduced modulo [2^32] after every
    increment; slices are lists, and the slice assignment
    [priorityList[i] = ...] is the list update [<[i:=_]>].  Calls to [glog]
    only write diagnostics and are left out.  The JSON decoder and encoder
    and the router of [httprouter] are parameters: the router is any type
    with [New] and a [POST] that returns the router or panics. *)

From Stdlib Require Import ZArith String Ascii.
From stdpp Require Import base list strings gmap.

Local Open Scope Z_scope.

(** ** The [strings] package *)

Module strings.

(** [strings.HasPrefix(s, prefix)]. *)
Definition HasPrefix (s pre : string) : bool := String.prefix pre s.

(** [strings.Contains(s, substr)]: [substr] occurs at some offset of [s]. *)
Fixpoint Contains (s substr : string) : bool :=
  if String.prefix substr s then true
  else match s with
       | EmptyString => false
       | String _ rest => Contains rest substr
       end.

End strings.

(** ** Kubernetes API objects, restricted to the fields the extender reads *)

Module v1.

Record ObjectMeta := { Name : string }.

Record Container := { ContainerName : string; Image : string }.

Record PodSpec := { Containers : list Container }.

Record Pod := { PodMeta : ObjectMeta; Spec : PodSpec }.

Record ContainerImage := { Names : list string; SizeBytes : Z }.

Record NodeStatus := { Images : list ContainerImage }.

Record Node := { NodeMeta : ObjectMeta; Status : NodeStatus }.

Record NodeList := { Items : list Node }.

End v1.

Module schedulingapi.

Record HostPriority := { Host : string; Score : Z }.

Abbreviation HostPriorityList := (list HostPriority).

(** [ExtenderArgs] holds pointers: a field absent from the JSON body is
    [nil], here [None]. *)
Record ExtenderArgs :=
  { Pod : option v1.Pod;
    Nodes : option v1.NodeList;
    NodeNames : option (list string) }.

End schedulingapi.

(** ** Machine integers *)

(** A [uint32] value after an arithmetic operation. *)
Definition wrap32 (z : Z) : Z := z mod 2 ^ 32.

(** The conversion [int(score)] of a [uint32] to the 64-bit signed [int]. *)
Definition int_of_uint32 (z : Z) : Z := (z + 2 ^ 63) mod 2 ^ 64 - 2 ^ 63.

(** ** [nodeHasImage] *)

(** The loop [for _, imgName := range img.Names]: the state is the pair of
    [count] and [shouldBreak]; a hit increments, sets the flag and breaks. *)
Fixpoint names_loop (image : string) (names : list string) (st : Z * bool)
  : Z * bool :=
  match names with
  | [] => st
  | imgName :: rest =>
      if strings.Contains imgName image
      then (wrap32 (st.1 + 1), true)
      else names_loop image rest st
  end.

(** The loop [for _, img := range nodeImages], left as soon as
    [shouldBreak] is set. *)
Fixpoint images_loop (image : string) (nodeImages : list v1.ContainerImage)
  (st : Z * bool) : Z * bool :=
  match nodeImages with
  | [] => st
  | img :: rest =>
      if st.2 then st
      else images_loop image rest (names_loop image (v1.Names img) st)
  end.

(** One iteration of [for _, ctnr := range pod.Spec.Containers]:
    [shouldBreak] starts out false for every container. *)
Definition container_step (nodeImages : list v1.ContainerImage)
  (count : Z) (ctnr : v1.Container) : Z :=
  (images_loop (v1.Image ctnr) nodeImages (count, false)).1.

Definition nodeHasImage (pod : v1.Pod) (nodeImages : list v1.ContainerImage)
  (nodeName : string) : Z :=
  if (Z.of_nat (length nodeImages) =? 0) then 0
  else foldl (container_step nodeImages) 0 (v1.Containers (v1.Spec pod)).

(** ** Errors, panics and the response writer *)

(** A Go [error], identified by its message. *)
Record error := { Error : string }.

(** What a [panic] carries: the error handed to [panic(err)], or the
    run-time error of dereferencing a [nil] pointer. *)
Inductive PanicValue :=
| PanicError (err : error)
| NilDereference.

(** A computation that returns or panics. *)
Inductive Exec (A : Type) :=
| Ret (a : A)
| Panic (v : PanicValue).
Arguments Ret {A} a.
Arguments Panic {A} v.

#[global] Instance Exec_ret : MRet Exec := fun A a => Ret a.

(** Sequencing: a panic skips the rest. *)
#[global] Instance Exec_bind : MBind Exec := fun A B k m =>
  match m with
  | Ret a => k a
  | Panic v => Panic v
  end.

#[global] Instance Exec_fmap : FMap Exec := fun A B f m =>
  match m with
  | Ret a => Ret (f a)
  | Panic v => Panic v
  end.

(** Dereferencing a pointer. *)
Definition deref {A} (p : option A) : Exec A :=
  match p with
  | Some a => Ret a
  | None => Panic NilDereference
  end.

Module http.

(** The observable state of an [http.ResponseWriter]: the header map, the
    status line once it is written, and the body bytes written so far. *)
Record ResponseWriter :=
  { Header : gmap string string;
    status : option Z;
    written : string }.

(** The writer the server hands to a handler. *)
Definition NewResponse : ResponseWriter :=
  {| Header := ∅; status := None; written := EmptyString |}.

Definition Header_Set (w : ResponseWriter) (k v : string) : ResponseWriter :=
  {| Header := <[k := v]> (Header w); status := status w; written := written w |}.

(** [w.WriteHeader(code)]: only the first call writes the status line. *)
Definition WriteHeader (w : ResponseWriter) (code : Z) : ResponseWriter :=
  match status w with
  | Some _ => w
  | None => {| Header := Header w; status := Some code; written := written w |}
  end.

(** [w.Write(b)]: writes status 200 first when no status was written. *)
Definition Write (w : ResponseWriter) (b : string) : ResponseWriter :=
  let w := WriteHeader w 200 in
  {| Header := Header w; status := status w; written := written w +:+ b |}.

Definition StatusOK : Z := 200.

(** [http.Error(w, msg, code)]: a plain-text reply with the given status
    and [msg] followed by a newline as its body. *)
Definition Error (w : ResponseWriter) (msg : string) (code : Z) : ResponseWriter :=
  let w := Header_Set w "Content-Type" "text/plain; charset=utf-8" in
  let w := Header_Set w "X-Content-Type-Options" "nosniff" in
  let w := WriteHeader w code in
  Write w (msg +:+ String "010" EmptyString).

(** A request as the handler sees it: [Body] is [nil] or a reader over
    the bytes of the body. *)
Record Request := { Body : option string }.

End http.

Module httprouter.

Definition Params := list (string * string).

Definition Handle : Type :=
  http.ResponseWriter -> http.Request -> Params -> http.ResponseWriter * Exec unit.

(** The router, as far as start-up uses it: [New()] and the method [POST],
    which registers a handle at a path and gives the router back, or panics
    with a message on a path that the router does not accept. *)
Record Impl :=
  { Router : Type;
    New : Router;
    POST : Router -> string -> Handle -> string + Router }.

End httprouter.

(** ** Priority methods *)

Record PrioritizeMethod :=
  { Name : string;
    Func : v1.Pod -> list v1.Node ->
           option schedulingapi.HostPriorityList * option error }.

(** [p.Handler(args)] is [p.Func( *args.Pod, args.Nodes.Items)]: both
    pointers are dereferenced, the pod first. *)
Definition Handler (p : PrioritizeMethod) (args : schedulingapi.ExtenderArgs)
  : Exec (option schedulingapi.HostPriorityList * option error) :=
  pod ← deref (schedulingapi.Pod args);
  nodes ← v1.Items <$> deref (schedulingapi.Nodes args);
  mret (Func p pod nodes).

(** The zero value that [make] fills the slice with. *)
Definition zeroHostPriority : schedulingapi.HostPriority :=
  {| schedulingapi.Host := EmptyString; schedulingapi.Score := 0 |}.

Definition node_name (node : v1.Node) : string := v1.Name (v1.NodeMeta node).

(** The loop [for i, node := range nodes] of [ImagePriority.Func], from
    index [i] on. *)
Fixpoint range_nodes (pod : v1.Pod) (i : nat) (nodes : list v1.Node)
  (priorityList : schedulingapi.HostPriorityList)
  : schedulingapi.HostPriorityList :=
  match nodes with
  | [] => priorityList
  | node :: rest =>
      let score := nodeHasImage pod (v1.Images (v1.Status node)) (node_name node) in
      range_nodes pod (S i) rest
        (<[ i := {| schedulingapi.Host := node_name node;
                    schedulingapi.Score := int_of_uint32 score |} ]> priorityList)
  end.

(** The list that [ImagePriority.Func] builds. *)
Definition image_score (pod : v1.Pod) (nodes : list v1.Node)
  : schedulingapi.HostPriorityList :=
  range_nodes pod 0 nodes (replicate (length nodes) zeroHostPriority).

Definition ImagePriority : PrioritizeMethod :=
  {| Name := "image_score";
     Func := fun pod nodes => (Some (image_score pod nodes), None) |}.

(** ** Start-up: [init] *)

(** The command-line flags after [flag.Parse]. *)
Record Flags :=
  { flag_api_prefix : string;
    flag_priorities_prefix : string;
    flag_http_addr : string }.

Definition default_flags : Flags :=
  {| flag_api_prefix := "/my_scheduler_extension";
     flag_priorities_prefix := "/my_new_priorities";
     flag_http_addr := ":80" |}.

(** The package-level variables. *)
Record Globals :=
  { httpAddr : string;
    apiPrefix : string;
    prioritiesPrefix : string }.

(** One of the three [if !strings.X(v, c) { v = c + v }] blocks. *)
Definition add_missing (present : bool) (c v : string) : string :=
  if negb present then c +:+ v else v.

Definition init (f : Flags) : Globals :=
  let httpAddr := flag_http_addr f in
  let apiPrefix := flag_api_prefix f in
  let prioritiesPrefix := flag_priorities_prefix f in
  let httpAddr := add_missing (strings.Contains httpAddr ":") ":" httpAddr in
  let apiPrefix := add_missing (strings.HasPrefix apiPrefix "/") "/" apiPrefix in
  let prioritiesPrefix :=
    add_missing (strings.HasPrefix prioritiesPrefix "/") "/" prioritiesPrefix in
  let prioritiesPrefix := apiPrefix +:+ prioritiesPrefix in
  {| httpAddr := httpAddr;
     apiPrefix := apiPrefix;
     prioritiesPrefix := prioritiesPrefix |}.

(** ** The HTTP service *)

Section Service.

(** [encoding/json]: decoding the request body into [ExtenderArgs] and
    encoding the [*HostPriorityList]. *)
Variable Decode : string -> error + schedulingapi.ExtenderArgs.
Variable Marshal : option schedulingapi.HostPriorityList -> error + string.

(** The router that [main] creates. *)
Variable R : httprouter.Impl.

Definition empty_request_message : string :=
  "the request is empty, expecting a pod and a list of nodes!".

Definition checkRequestBody (w : http.ResponseWriter) (r : http.Request)
  : http.ResponseWriter * bool :=
  match http.Body r with
  | None => (http.Error w empty_request_message 400, false)
  | Some _ => (w, true)
  end.

(** [panic(err)] when [err != nil]. *)
Definition or_panic {A} (x : error + A) : Exec A :=
  match x with
  | inl err => Panic (PanicError err)
  | inr a => Ret a
  end.

(** The part of the handler after the body check, up to the encoded
    result: nothing is written to the response before it ends. *)
Definition score_body (priorityMethod : PrioritizeMethod) (r : http.Request)
  : Exec string :=
  body ← deref (http.Body r);
  extenderArgs ← or_panic (Decode body);
  res ← Handler priorityMethod extenderArgs;
  hostPriorityList ← match res.2 with
                     | Some err => Panic (PanicError err)
                     | None => Ret res.1
                     end;
  or_panic (Marshal hostPriorityList).

Definition PrioritizeRoute (priorityMethod : PrioritizeMethod)
  : httprouter.Handle :=
  fun w r _ =>
    let '(w, ok) := checkRequestBody w r in
    if negb ok then (w, Ret tt)
    else
      match score_body priorityMethod r with
      | Panic v => (w, Panic v)
      | Ret resultBody =>
          let w := http.Header_Set w "Content-Type" "application/json" in
          let w := http.WriteHeader w http.StatusOK in
          let w := http.Write w resultBody in
          (w, Ret tt)
      end.

Definition AddPrioritizeFunc (g : Globals) (router : httprouter.Router R)
  (priorityMethod : PrioritizeMethod) : string + httprouter.Router R :=
  let path := prioritiesPrefix g +:+ "/" +:+ Name priorityMethod in
  httprouter.POST R router path (PrioritizeRoute priorityMethod).




End Service.

(** ** Serving *)




(** ** The properties in the words of the specification *)

(** The path at which a method is registered. *)
Definition route_path (g : Globals) (m : PrioritizeMethod) : string :=
  prioritiesPrefix g +:+ "/" +:+ Name m.


(** [sub] occurs in [s] as a contiguous run of bytes. *)
Definition is_substring (sub s : string) : Prop :=
  exists pre post, s = pre +:+ sub +:+ post.

(** A container matches a node when one of the names of one of the node's
    image records contains the container's image reference. *)
Definition has_match (nodeImages : list v1.ContainerImage) (c : v1.Container)
  : Prop :=
  exists img name,
    img ∈ nodeImages /\ name ∈ v1.Names img /\ is_substring (v1.Image c) name.

(** The same test as a boolean, as the two inner loops evaluate it. *)
Definition has_matchb (nodeImages : list v1.ContainerImage) (c : v1.Container)
  : bool :=
  List.existsb
    (fun img => List.existsb (fun name => strings.Contains name (v1.Image c))
                  (v1.Names img))
    nodeImages.

Definition containers (pod : v1.Pod) : list v1.Container :=
  v1.Containers (v1.Spec pod).

(** A configured prefix with the leading slash supplied when missing. *)
Definition with_leading_slash (s : string) : string :=
  if strings.HasPrefix s "/" then s else "/" +:+ s.

(** The entry of the score list for one node. *)
Definition score_entry (pod : v1.Pod) (node : v1.Node)
  : schedulingapi.HostPriority :=
  {| schedulingapi.Host := node_name node;
     schedulingapi.Score :=
       nodeHasImage pod (v1.Images (v1.Status node)) (node_name node) |}.

(** All the names a node reports, over its image records. *)
Definition reported_names (nodeImages : list v1.ContainerImage) : list string :=
  mjoin (v1.Names <$> nodeImages).

(** The pod with the same metadata and the given containers. *)
Definition with_containers (pod : v1.Pod) (cs : list v1.Container) : v1.Pod :=
  {| v1.PodMeta := v1.PodMeta pod; v1.Spec := {| v1.Containers := cs |} |}.

(** ** Sample objects *)

Definition container_of (image : string) : v1.Container :=
  {| v1.ContainerName := "c"; v1.Image := image |}.

Definition pod_of (cs : list v1.Container) : v1.Pod :=
  {| v1.PodMeta := {| v1.Name := "pod" |}; v1.Spec := {| v1.Containers := cs |} |}.

Definition image_of (names : list string) : v1.ContainerImage :=
  {| v1.Names := names; v1.SizeBytes := 0 |}.

Definition node_of (name : string) (images : list (list string)) : v1.Node :=
  {| v1.NodeMeta := {| v1.Name := name |};
     v1.Status := {| v1.Images := image_of <$> images |} |}.

(** A pod with [2^32] containers, each with an empty image reference. *)
Definition wide_pod : v1.Pod :=
  pod_of (replicate (Z.to_nat (2 ^ 32)) (container_of EmptyString)).




(** * Proofs *)

(** ** Strings *)

Lemma append_nil (t : string) : EmptyString +:+ t = t.
Proof. reflexivity. Qed.

Lemma append_cons (a : ascii) (s t : string) :
  String a s +:+ t = String a (s +:+ t).
Proof. reflexivity. Qed.

Lemma prefix_spec (p s : string) :
  String.prefix p s = true <-> exists post, s = p +:+ post.
Proof.
  revert s; induction p as [|a p IH]; intros s.
  - destruct s; split; eauto.
  - destruct s as [|b s]; simpl.
    + split; [discriminate | intros [post H]; discriminate].
    + destruct (Ascii.ascii_dec a b) as [->|Hne].
      * rewrite IH. split; intros [post H]; exists post.
        -- by rewrite append_cons, H.
        -- rewrite append_cons in H. by injection H.
      * split; [discriminate |].
        intros [post H]. rewrite append_cons in H. congruence.
Qed.

Lemma prefix_here (sub post : string) : String.prefix sub (sub +:+ post) = true.
Proof. apply prefix_spec. eauto. Qed.

Lemma Contains_unfold (s sub : string) :
  strings.Contains s sub =
  if String.prefix sub s then true
  else match s with
       | EmptyString => false
       | String _ rest => strings.Contains rest sub
       end.
Proof. by destruct s. Qed.

Lemma Contains_spec (s sub : string) :
  strings.Contains s sub = true <-> is_substring sub s.
Proof.
  unfold is_substring.
  induction s as [|a s IH]; rewrite Contains_unfold.
  - destruct (String.prefix sub EmptyString) eqn:E.
    + split; [intros _ | done].
      apply prefix_spec in E as [post E]. by exists EmptyString, post.
    + split; [discriminate |]. intros (pre & post & H).
      destruct pre; [| discriminate]. rewrite append_nil in H.
      rewrite H, prefix_here in E. discriminate.
  - destruct (String.prefix sub (String a s)) eqn:E.
    + split; [intros _ | done].
      apply prefix_spec in E as [post E]. by exists EmptyString, post.
    + rewrite IH. split.
      * intros (pre & post & ->). by exists (String a pre), post.
      * intros (pre & post & H). destruct pre as [|b pre].
        -- rewrite append_nil in H. rewrite H, prefix_here in E. discriminate.
        -- rewrite append_cons in H. injection H as _ ->. eauto.
Qed.

Lemma Contains_empty (s : string) : strings.Contains s EmptyString = true.
Proof. apply Contains_spec. by exists EmptyString, s. Qed.

(** ** The scan of one container *)

Lemma has_matchb_spec (nodeImages : list v1.ContainerImage) (c : v1.Container) :
  has_matchb nodeImages c = true <-> has_match nodeImages c.
Proof.
  unfold has_matchb, has_match. rewrite List.existsb_exists. split.
  - intros (img & Himg & H). apply List.existsb_exists in H as (name & Hn & H).
    exists img, name. rewrite !list_elem_of_In. by rewrite <- Contains_spec.
  - intros (img & name & Himg & Hn & H). exists img.
    rewrite list_elem_of_In in Himg. split; [done |].
    apply List.existsb_exists. exists name.
    rewrite list_elem_of_In in Hn. by rewrite Contains_spec.
Qed.

#[global] Instance has_match_dec nodeImages c : Decision (has_match nodeImages c).
Proof.
  destruct (has_matchb nodeImages c) eqn:E.
  - left. by apply has_matchb_spec.
  - right. rewrite <- has_matchb_spec. congruence.
Defined.

Lemma names_loop_spec (image : string) (names : list string) (st : Z * bool) :
  names_loop image names st =
  if List.existsb (fun name => strings.Contains name image) names
  then (wrap32 (st.1 + 1), true) else st.
Proof.
  induction names as [|name names IH]; simpl; [done |].
  by destruct (strings.Contains name image).
Qed.

(** Once [shouldBreak] is set no further record is looked at. *)
Lemma images_loop_break (image : string) (nodeImages : list v1.ContainerImage)
  (count : Z) :
  images_loop image nodeImages (count, true) = (count, true).
Proof. by destruct nodeImages. Qed.

Lemma images_loop_spec (image : string) (nodeImages : list v1.ContainerImage)
  (count : Z) :
  images_loop image nodeImages (count, false) =
  if List.existsb
       (fun img => List.existsb (fun name => strings.Contains name image)
                     (v1.Names img)) nodeImages
  then (wrap32 (count + 1), true) else (count, false).
Proof.
  induction nodeImages as [|img rest IH]; simpl; [done |].
  rewrite names_loop_spec.
  destruct (List.existsb _ (v1.Names img)); simpl; [| done].
  apply images_loop_break.
Qed.

Lemma container_step_spec (nodeImages : list v1.ContainerImage) (count : Z)
  (c : v1.Container) :
  container_step nodeImages count c =
  if decide (has_match nodeImages c) then wrap32 (count + 1) else count.
Proof.
  unfold container_step. rewrite images_loop_spec.
  fold (has_matchb nodeImages c).
  destruct (decide (has_match nodeImages c)) as [H|H].
  - apply has_matchb_spec in H. by rewrite H.
  - destruct (has_matchb nodeImages c) eqn:E; [| done].
    by apply has_matchb_spec in E.
Qed.

(** ** Machine arithmetic *)

Lemma wrap32_range (z : Z) : 0 <= wrap32 z < 2 ^ 32.
Proof. unfold wrap32. apply Z.mod_pos_bound. lia. Qed.

Lemma wrap32_small (z : Z) : 0 <= z < 2 ^ 32 -> wrap32 z = z.
Proof. unfold wrap32. intros H. by apply Z.mod_small. Qed.

Lemma wrap32_succ (z : Z) : wrap32 (wrap32 z + 1) = wrap32 (z + 1).
Proof. unfold wrap32. by rewrite Zplus_mod_idemp_l. Qed.

Lemma wrap32_le (z : Z) : 0 <= z -> wrap32 z <= z.
Proof. unfold wrap32. intros H. apply Z.mod_le; lia. Qed.

Lemma int_of_uint32_id (z : Z) : 0 <= z < 2 ^ 32 -> int_of_uint32 z = z.
Proof.
  unfold int_of_uint32. intros H.
  rewrite Z.mod_small; lia.
Qed.

(** ** The count of [nodeHasImage] *)

Lemma has_match_nil (c : v1.Container) : ~ has_match [] c.
Proof. intros (img & name & Himg & _). by apply elem_of_nil in Himg. Qed.

Lemma containers_loop_spec (nodeImages : list v1.ContainerImage)
  (cs : list v1.Container) :
  foldl (container_step nodeImages) 0 cs =
  wrap32 (Z.of_nat (length (filter (has_match nodeImages) cs))).
Proof.
  induction cs as [|c cs IH] using rev_ind; [done |].
  rewrite foldl_app, filter_app, length_app. simpl.
  rewrite container_step_spec, IH.
  destruct (decide (has_match nodeImages c)) as [H|H].
  - rewrite filter_cons_True, filter_nil by done. simpl.
    rewrite wrap32_succ. f_equal. lia.
  - rewrite filter_cons_False, filter_nil by done. simpl.
    f_equal. lia.
Qed.

Lemma nodeHasImage_spec (pod : v1.Pod) (nodeImages : list v1.ContainerImage)
  (nodeName : string) :
  nodeHasImage pod nodeImages nodeName =
  wrap32 (Z.of_nat (length (filter (has_match nodeImages) (containers pod)))).
Proof.
  unfold nodeHasImage, containers.
  destruct nodeImages as [|img rest].
  - simpl. induction (v1.Containers (v1.Spec pod)) as [|c cs IH]; [done |].
    rewrite filter_cons_False; [done | apply has_match_nil].
  - change (Z.of_nat (length (img :: rest)) =? 0) with false.
    apply containers_loop_spec.
Qed.

Lemma nodeHasImage_range (pod : v1.Pod) (nodeImages : list v1.ContainerImage)
  (nodeName : string) :
  0 <= nodeHasImage pod nodeImages nodeName < 2 ^ 32.
Proof. rewrite nodeHasImage_spec. apply wrap32_range. Qed.

Lemma filter_replicate_True {A} (P : A -> Prop) `{!∀ x, Decision (P x)}
  (n : nat) (x : A) :
  P x -> filter P (replicate n x) = replicate n x.
Proof.
  intros Hx. induction n as [|n IH]; simpl; [done |].
  by rewrite filter_cons_True, IH.
Qed.

Lemma has_match_empty_image (nodeImages : list v1.ContainerImage)
  (c : v1.Container) (img : v1.ContainerImage) (name : string) :
  v1.Image c = EmptyString -> img ∈ nodeImages -> name ∈ v1.Names img ->
  has_match nodeImages c.
Proof.
  intros Hc Himg Hname. exists img, name. repeat split; try done.
  rewrite Hc. by exists EmptyString, name.
Qed.

(** ** The score list of [ImagePriority] *)

(** The loop fills the slots from [i] on and leaves the earlier ones. *)
Lemma range_nodes_spec (pod : v1.Pod) (nodes : list v1.Node)
  (done_ todo : schedulingapi.HostPriorityList) :
  length todo = length nodes ->
  range_nodes pod (length done_) nodes (done_ ++ todo) =
  done_ ++ (score_entry pod <$> nodes).
Proof.
  revert done_ todo. induction nodes as [|node rest IH]; intros done_ todo Hlen.
  - destruct todo; [done | discriminate].
  - destruct todo as [|slot todo]; [discriminate |]. simpl in Hlen.
    cbn [range_nodes]. rewrite insert_app_r_alt, Nat.sub_diag by lia.
    cbn [insert list_insert].
    rewrite int_of_uint32_id by apply nodeHasImage_range.
    fold (score_entry pod node).
    rewrite (cons_middle (score_entry pod node)), !app_assoc.
    replace (S (length done_)) with (length (done_ ++ [score_entry pod node]))
      by (rewrite length_app; simpl; lia).
    rewrite IH by lia. by rewrite <- app_assoc.
Qed.

Lemma image_score_spec (pod : v1.Pod) (nodes : list v1.Node) :
  image_score pod nodes = score_entry pod <$> nodes.
Proof.
  unfold image_score.
  apply (range_nodes_spec pod nodes [] (replicate (length nodes) _)).
  apply length_replicate.
Qed.

Lemma image_score_hosts (pod : v1.Pod) (nodes : list v1.Node) :
  schedulingapi.Host <$> image_score pod nodes = node_name <$> nodes.
Proof.
  rewrite image_score_spec, <- list_fmap_compose. done.
Qed.

(** In a pod of [n] copies of a container with an empty image reference,
    all [n] containers match on a node that reports a name. *)
Lemma matching_replicate (nodeImages : list v1.ContainerImage) (n : Z)
  (c : v1.Container) (img : v1.ContainerImage) (name : string) :
  v1.Image c = EmptyString -> img ∈ nodeImages -> name ∈ v1.Names img ->
  Z.of_nat (length (filter (has_match nodeImages)
                      (containers (pod_of (replicate (Z.to_nat n) c))))) =
  Z.of_nat (Z.to_nat n).
Proof.
  intros Hc Himg Hname. unfold pod_of, containers. cbn [v1.Spec v1.Containers].
  rewrite filter_replicate_True, length_replicate; [done |].
  by apply (has_match_empty_image _ _ img name).
Qed.

(** Below [2^32] matching containers the counter has not wrapped. *)
Lemma nodeHasImage_exact (pod : v1.Pod) (nodeImages : list v1.ContainerImage)
  (nodeName : string) :
  Z.of_nat (length (containers pod)) < 2 ^ 32 ->
  nodeHasImage pod nodeImages nodeName =
  Z.of_nat (length (filter (has_match nodeImages) (containers pod))).
Proof.
  intros Hlt. rewrite nodeHasImage_spec. apply wrap32_small.
  pose proof (length_filter (has_match nodeImages) (containers pod)). lia.
Qed.

(** The two scoring scenarios of the specification. *)
Example scenario_one_image_two_nodes :
  image_score (pod_of [container_of "nginx:1.7.9"])
    [node_of "A" [["docker.io/library/nginx:1.7.9"]]; node_of "B" []] =
  [ {| schedulingapi.Host := "A"; schedulingapi.Score := 1 |};
    {| schedulingapi.Host := "B"; schedulingapi.Score := 0 |} ].
Proof. reflexivity. Qed.

Example scenario_two_images_one_node :
  nodeHasImage (pod_of [container_of "nginx"; container_of "redis"])
    [image_of ["nginx:latest"]; image_of ["redis:6"]] "node" = 2.
Proof. reflexivity. Qed.

(** One container is counted once although two names and two records
    match it. *)
Example several_aliases_count_once :
  nodeHasImage (pod_of [container_of "nginx"])
    [image_of ["nginx:latest"; "docker.io/library/nginx"]; image_of ["my-nginx"]]
    "node" = 1.
Proof. reflexivity. Qed.

(** ** Claims on the image-locality score *)

(** C1, as amended. For every pod and node image list, [nodeHasImage]
    returns the number of the pod's containers that have a match among the
    node's reported image names, reduced modulo [2^32] because the counter
    is a [uint32]; a match is substring containment of the container's image
    reference in a reported name, and one container moves the counter by one
    when it matches, however many names match, and not at all otherwise. *)
Theorem nodeHasImage_counts_matching_containers
  (pod : v1.Pod) (nodeImages : list v1.ContainerImage) (nodeName : string) :
  nodeHasImage pod nodeImages nodeName =
    Z.of_nat (length (filter (has_match nodeImages) (containers pod)))
      mod 2 ^ 32
  /\ forall (count : Z) (c : v1.Container),
       container_step nodeImages count c =
       if decide (has_match nodeImages c) then (count + 1) mod 2 ^ 32 else count.
Proof.
  split.
  - apply nodeHasImage_spec.
  - intros count c. apply container_step_spec.
Qed.

(** C1, counterexample. On a pod with [2^32] containers that all match, the
    counter has wrapped to 0 while [2^32] containers match. *)
Lemma nodeHasImage_wraps_on_wide_pod :
  nodeHasImage wide_pod [image_of ["nginx"]] "node" = 0
  /\ Z.of_nat (length (filter (has_match [image_of ["nginx"]])
                         (containers wide_pod))) = 2 ^ 32
  /\ nodeHasImage wide_pod [image_of ["nginx"]] "node" <>
     Z.of_nat (length (filter (has_match [image_of ["nginx"]])
                         (containers wide_pod))).
Proof.
  rewrite nodeHasImage_spec.
  pose proof (matching_replicate [image_of ["nginx"]] (2 ^ 32)
                (container_of EmptyString) (image_of ["nginx"]) "nginx"
                eq_refl (list_elem_of_here _ _) (list_elem_of_here _ _))
    as Hcount.
  fold wide_pod in Hcount. rewrite Hcount.
  rewrite Z2Nat.id by (apply Z.pow_nonneg; apply Z.le_0_2).
  unfold wrap32. rewrite Z.mod_same by (apply Z.pow_nonzero; discriminate).
  split; [reflexivity |]. split; [reflexivity |].
  apply Z.lt_neq, Z.pow_pos_nonneg; [reflexivity | discriminate].
Qed.

(** C5. The score of a node is non-negative and at most the number of
    containers of the pod, for [nodeHasImage] and for every entry of the
    list that [ImagePriority] returns. *)
Theorem score_between_zero_and_container_count
  (pod : v1.Pod) (nodeImages : list v1.ContainerImage) (nodeName : string)
  (nodes : list v1.Node) :
  (0 <= nodeHasImage pod nodeImages nodeName <=
     Z.of_nat (length (containers pod)))
  /\ Forall (fun hp => 0 <= schedulingapi.Score hp <=
                         Z.of_nat (length (containers pod)))
       (image_score pod nodes).
Proof.
  assert (Hone : forall imgs name,
    0 <= nodeHasImage pod imgs name <= Z.of_nat (length (containers pod))).
  { intros imgs name. split; [apply nodeHasImage_range |].
    rewrite nodeHasImage_spec.
    pose proof (length_filter (has_match imgs) (containers pod)) as Hle.
    etransitivity; [apply wrap32_le |]; lia. }
  split; [apply Hone |].
  rewrite image_score_spec. apply Forall_fmap, Forall_forall.
  intros node _. apply Hone.
Qed.

(** C7. A node that reports no image scores 0 whatever the pod is, and a
    pod without containers scores 0 on every node. *)
Theorem empty_inputs_score_zero :
  (forall (pod : v1.Pod) (nodeName : string),
     nodeHasImage pod [] nodeName = 0)
  /\ (forall (meta : v1.ObjectMeta) (nodeImages : list v1.ContainerImage)
        (nodeName : string),
        nodeHasImage {| v1.PodMeta := meta; v1.Spec := {| v1.Containers := [] |} |}
          nodeImages nodeName = 0).
Proof.
  split.
  - intros pod nodeName. reflexivity.
  - intros meta nodeImages nodeName. unfold nodeHasImage.
    by destruct (Z.of_nat (length nodeImages) =? 0).
Qed.

(** C8, as amended. When a node reports an image record with at least one
    name, a container with an empty image reference matches on that node and
    moves the counter by one: the score of a pod holding such a container is
    the score of the pod without it plus one, reduced modulo [2^32] as the
    [uint32] counter is. *)
Theorem empty_image_reference_always_matches
  (nodeImages : list v1.ContainerImage) (img : v1.ContainerImage)
  (name : string) (c : v1.Container)
  (Himg : img ∈ nodeImages) (Hname : name ∈ v1.Names img)
  (Hc : v1.Image c = EmptyString) :
  has_match nodeImages c
  /\ (forall count : Z,
        container_step nodeImages count c = (count + 1) mod 2 ^ 32)
  /\ (forall (meta : v1.ObjectMeta) (before after : list v1.Container)
        (nodeName : string),
        nodeHasImage
          {| v1.PodMeta := meta;
             v1.Spec := {| v1.Containers := before ++ c :: after |} |}
          nodeImages nodeName =
        (nodeHasImage
           {| v1.PodMeta := meta;
              v1.Spec := {| v1.Containers := before ++ after |} |}
           nodeImages nodeName + 1) mod 2 ^ 32).
Proof.
  assert (Hm : has_match nodeImages c)
    by apply (has_match_empty_image _ _ img name Hc Himg Hname).
  split; [done |]. split.
  - intros count. rewrite container_step_spec. by rewrite decide_True.
  - intros meta before after nodeName. rewrite !nodeHasImage_spec.
    unfold containers. cbn [v1.Spec v1.Containers].
    rewrite !filter_app, filter_cons_True, !length_app by done.
    cbn [length]. fold (wrap32 (wrap32 (Z.of_nat
      (length (filter (has_match nodeImages) before) +
       length (filter (has_match nodeImages) after))) + 1)).
    rewrite wrap32_succ. f_equal. lia.
Qed.

Lemma empty_image_reference_always_matches_witness :
  has_match [image_of ["nginx:latest"]] (container_of EmptyString)
  /\ nodeHasImage (pod_of [container_of EmptyString])
       [image_of ["nginx:latest"]] "node" = 1.
Proof.
  destruct (empty_image_reference_always_matches
              [image_of ["nginx:latest"]] (image_of ["nginx:latest"])
              "nginx:latest" (container_of EmptyString)
              (list_elem_of_here _ _) (list_elem_of_here _ _) eq_refl)
    as (Hm & _ & Hpod).
  split; [exact Hm |].
  exact (Hpod {| v1.Name := "pod" |} [] [] "node").
Defined.

Lemma matching_replicate_snoc (nodeImages : list v1.ContainerImage) (n : Z)
  (c : v1.Container) (img : v1.ContainerImage) (name : string) :
  v1.Image c = EmptyString -> img ∈ nodeImages -> name ∈ v1.Names img ->
  Z.of_nat (length (filter (has_match nodeImages)
                      (containers (pod_of (replicate (Z.to_nat n) c ++ [c])))))
  = Z.of_nat (Z.to_nat n) + 1.
Proof.
  intros Hc Himg Hname. unfold pod_of, containers. cbn [v1.Spec v1.Containers].
  assert (Hm : has_match nodeImages c)
    by apply (has_match_empty_image _ _ img name Hc Himg Hname).
  rewrite filter_app, filter_replicate_True, filter_cons_True, filter_nil
    by done.
  rewrite length_app, length_replicate. cbn [length]. lia.
Qed.

(** C8, counterexample. On a pod of [2^32 - 1] containers with an empty
    image reference the score is [2^32 - 1]; with one more such container
    the score is 0, not one more. *)
Lemma empty_reference_wraps_the_counter :
  nodeHasImage
    (pod_of (replicate (Z.to_nat (2 ^ 32 - 1)) (container_of EmptyString)))
    [image_of ["nginx"]] "node" = 2 ^ 32 - 1
  /\ nodeHasImage
       (pod_of (replicate (Z.to_nat (2 ^ 32 - 1)) (container_of EmptyString)
                ++ [container_of EmptyString]))
       [image_of ["nginx"]] "node" = 0
  /\ nodeHasImage
       (pod_of (replicate (Z.to_nat (2 ^ 32 - 1)) (container_of EmptyString)
                ++ [container_of EmptyString]))
       [image_of ["nginx"]] "node" <>
     nodeHasImage
       (pod_of (replicate (Z.to_nat (2 ^ 32 - 1)) (container_of EmptyString)))
       [image_of ["nginx"]] "node" + 1.
Proof.
  assert (Hn : Z.of_nat (Z.to_nat (2 ^ 32 - 1)) = 2 ^ 32 - 1)
    by (apply Z2Nat.id; discriminate).
  pose proof (matching_replicate [image_of ["nginx"]] (2 ^ 32 - 1)
                (container_of EmptyString) (image_of ["nginx"]) "nginx"
                eq_refl (list_elem_of_here _ _) (list_elem_of_here _ _))
    as Hbefore.
  pose proof (matching_replicate_snoc [image_of ["nginx"]] (2 ^ 32 - 1)
                (container_of EmptyString) (image_of ["nginx"]) "nginx"
                eq_refl (list_elem_of_here _ _) (list_elem_of_here _ _))
    as Hafter.
  rewrite Hn in Hbefore, Hafter.
  rewrite !nodeHasImage_spec, Hbefore, Hafter. unfold wrap32.
  split; [reflexivity |]. split; [reflexivity | discriminate].
Qed.

(** C2, as amended. The list returned by [ImagePriority] has one entry per
    input node, and its host names are the names of the input nodes in
    input order; they are free of duplicates exactly when the names of the
    input nodes are. *)
Theorem image_score_length_and_hosts (pod : v1.Pod) (nodes : list v1.Node) :
  Func ImagePriority pod nodes = (Some (image_score pod nodes), None)
  /\ length (image_score pod nodes) = length nodes
  /\ schedulingapi.Host <$> image_score pod nodes = node_name <$> nodes
  /\ (NoDup (schedulingapi.Host <$> image_score pod nodes) <->
      NoDup (node_name <$> nodes)).
Proof.
  split; [done |]. split.
  - by rewrite image_score_spec, length_fmap.
  - split; [apply image_score_hosts |]. by rewrite image_score_hosts.
Qed.

(** C2, counterexample. Two input nodes of the same name give two entries
    with the same host. *)
Lemma image_score_repeats_duplicate_node_names :
  ~ NoDup (schedulingapi.Host <$>
             image_score (pod_of [container_of "nginx"])
               [node_of "worker" [["nginx:1.7.9"]]; node_of "worker" []]).
Proof.
  rewrite image_score_hosts. cbn. intros H.
  apply NoDup_cons in H as [Hin _]. apply Hin, list_elem_of_here.
Qed.


(** ** The request handler *)

Section ServiceProofs.

Variable Decode : string -> error + schedulingapi.ExtenderArgs.
Variable Marshal : option schedulingapi.HostPriorityList -> error + string.

Lemma checkRequestBody_present (w : http.ResponseWriter) (r : http.Request)
  (body : string) :
  http.Body r = Some body -> checkRequestBody w r = (w, true).
Proof. unfold checkRequestBody. by intros ->. Qed.

Lemma http_Error_fresh (w : http.ResponseWriter) (msg : string) (code : Z) :
  http.status w = None ->
  http.status (http.Error w msg code) = Some code
  /\ http.written (http.Error w msg code) =
     http.written w +:+ msg +:+ String "010" EmptyString.
Proof.
  intros Hfresh. unfold http.Error, http.Write, http.WriteHeader.
  cbn. rewrite Hfresh. by cbn.
Qed.

(** X17. A request without a body reader ([r.Body == nil]) is answered with
    status 400 and the fixed plain-text message; the handler returns
    normally, and the reply is the same for every priority method, decoder
    and encoder, none of which is consulted. *)
Lemma nil_body_gets_400
  (priorityMethod : PrioritizeMethod) (w : http.ResponseWriter)
  (r : http.Request) (ps : httprouter.Params)
  (Hbody : http.Body r = None) (Hfresh : http.status w = None) :
  PrioritizeRoute Decode Marshal priorityMethod w r ps =
    (http.Error w empty_request_message 400, Ret tt)
  /\ http.status (http.Error w empty_request_message 400) = Some 400
  /\ http.written (http.Error w empty_request_message 400) =
     http.written w +:+ empty_request_message +:+ String "010" EmptyString.
Proof.
  split; [| by apply http_Error_fresh].
  unfold PrioritizeRoute, checkRequestBody. by rewrite Hbody.
Qed.

(** A request whose body reader is present passes the check whatever the
    body holds: the handler then either replies with status 200 or panics
    with the response untouched. *)
Lemma present_body_outcome
  (priorityMethod : PrioritizeMethod) (w : http.ResponseWriter)
  (r : http.Request) (ps : httprouter.Params) (body : string) :
  http.Body r = Some body -> http.status w = None ->
  ((PrioritizeRoute Decode Marshal priorityMethod w r ps).2 = Ret tt
   /\ http.status (PrioritizeRoute Decode Marshal priorityMethod w r ps).1 =
      Some 200)
  \/ (exists v, PrioritizeRoute Decode Marshal priorityMethod w r ps =
                (w, Panic v)).
Proof.
  intros Hbody Hfresh. unfold PrioritizeRoute.
  rewrite (checkRequestBody_present w r body Hbody). cbn.
  destruct (score_body Decode Marshal priorityMethod r) as [resultBody|v].
  - left. split; [done |]. unfold http.Write, http.WriteHeader. cbn.
    rewrite Hfresh. by cbn.
  - right. by exists v.
Qed.

(** C3, at a body that is present and holds no byte. The check
    [r.Body == nil] lets the request through to the decoder: the handler
    replies with status 200 or panics without writing a response, and it
    panics with the decoder's error when the decoder rejects the empty
    input; status 400 is not written. *)
Theorem empty_body_passes_the_check
  (priorityMethod : PrioritizeMethod) (ps : httprouter.Params) :
  let res := PrioritizeRoute Decode Marshal priorityMethod http.NewResponse
               {| http.Body := Some EmptyString |} ps in
  checkRequestBody http.NewResponse {| http.Body := Some EmptyString |} =
    (http.NewResponse, true)
  /\ ((res.2 = Ret tt /\ http.status res.1 = Some 200)
      \/ (exists v, res = (http.NewResponse, Panic v)))
  /\ match Decode EmptyString with
     | inl err => res = (http.NewResponse, Panic (PanicError err))
     | inr _ => True
     end.
Proof.
  intros res. split; [done |]. split.
  - by apply (present_body_outcome _ _ _ _ EmptyString).
  - subst res. unfold PrioritizeRoute, score_body. cbn.
    by destruct (Decode EmptyString).
Qed.


(** C10. [ImagePriority.Func] returns a nil error on every input, so the
    handler for [ImagePriority] never takes the branch that panics on a
    scoring error: its result is fixed by the body, the decoder, the two
    pointers of the arguments and the encoder. *)
Theorem image_score_never_fails :
  (forall (pod : v1.Pod) (nodes : list v1.Node),
     (Func ImagePriority pod nodes).2 = None)
  /\ (forall r : http.Request,
        score_body Decode Marshal ImagePriority r =
        (body ← deref (http.Body r);
         extenderArgs ← or_panic (Decode body);
         pod ← deref (schedulingapi.Pod extenderArgs);
         nodes ← v1.Items <$> deref (schedulingapi.Nodes extenderArgs);
         or_panic (Marshal (Some (image_score pod nodes))))).
Proof.
  split; [done |].
  intros r. unfold score_body, Handler.
  destruct (http.Body r) as [body|]; cbn; [| done].
  destruct (Decode body) as [err|args]; cbn; [done |].
  destruct (schedulingapi.Pod args) as [pod|]; cbn; [| done].
  by destruct (schedulingapi.Nodes args) as [nl|].
Qed.

End ServiceProofs.



(** ** Start-up and routes *)

Lemma string_app_assoc (s t u : string) : (s +:+ t) +:+ u = s +:+ t +:+ u.
Proof.
  induction s as [|a s IH]; [done |].
  by rewrite !append_cons, IH.
Qed.

Lemma with_leading_slash_prefix (s : string) :
  strings.HasPrefix (with_leading_slash s) "/" = true.
Proof.
  unfold with_leading_slash.
  destruct (strings.HasPrefix s "/") eqn:E; [done |].
  apply prefix_here.
Qed.

Lemma add_missing_slash (s : string) :
  add_missing (strings.HasPrefix s "/") "/" s = with_leading_slash s.
Proof.
  unfold add_missing, with_leading_slash.
  by destruct (strings.HasPrefix s "/").
Qed.

Section Routes.

Variable Decode : string -> error + schedulingapi.ExtenderArgs.
Variable Marshal : option schedulingapi.HostPriorityList -> error + string.
Variable R : httprouter.Impl.


Lemma route_path_init (f : Flags) (m : PrioritizeMethod) :
  route_path (init f) m =
  with_leading_slash (flag_api_prefix f)
  +:+ with_leading_slash (flag_priorities_prefix f) +:+ "/" +:+ Name m.
Proof.
  unfold route_path, init. cbn [prioritiesPrefix].
  by rewrite !add_missing_slash, string_app_assoc.
Qed.


End Routes.


(** * Further properties of the scorer *)

Lemma has_match_names (nodeImages : list v1.ContainerImage) (c : v1.Container) :
  has_match nodeImages c <->
  exists name, name ∈ reported_names nodeImages /\ is_substring (v1.Image c) name.
Proof.
  unfold has_match, reported_names. split.
  - intros (img & name & Himg & Hname & Hsub). exists name. split; [| done].
    apply list_elem_of_join. exists (v1.Names img). split; [done |].
    apply list_elem_of_fmap. by exists img.
  - intros (name & Hin & Hsub).
    apply list_elem_of_join in Hin as (names & Hname & Hnames).
    apply list_elem_of_fmap in Hnames as (img & -> & Himg). by exists img, name.
Qed.

Lemma score_of_match_iff (pod : v1.Pod) (imgs1 imgs2 : list v1.ContainerImage)
  (name1 name2 : string) :
  (forall c, has_match imgs1 c <-> has_match imgs2 c) ->
  nodeHasImage pod imgs1 name1 = nodeHasImage pod imgs2 name2.
Proof.
  intros Hiff. rewrite !nodeHasImage_spec.
  by rewrite (list_filter_iff _ _ _ Hiff).
Qed.

Lemma length_filter_impl {A} (P Q : A -> Prop)
  `{!∀ x, Decision (P x)} `{!∀ x, Decision (Q x)} (l : list A) :
  (forall x, P x -> Q x) ->
  (length (filter P l) <= length (filter Q l))%nat.
Proof.
  intros Himpl. induction l as [|x l IH]; [done |].
  destruct (decide (P x)) as [HP|HP].
  - rewrite (filter_cons_True P), (filter_cons_True Q) by auto. simpl. lia.
  - rewrite (filter_cons_False P) by done.
    destruct (decide (Q x)).
    + rewrite (filter_cons_True Q) by done. simpl. lia.
    + by rewrite (filter_cons_False Q).
Qed.

Lemma is_substring_trans (s t u : string) :
  is_substring s t -> is_substring t u -> is_substring s u.
Proof.
  intros (pre1 & post1 & ->) (pre2 & post2 & ->).
  exists (pre2 +:+ pre1), (post1 +:+ post2).
  by rewrite !string_app_assoc.
Qed.

(** X1. The score depends on the node only through the set of names it
    reports: two image lists with the same reported names, in whatever
    records, order or multiplicity, give every pod the same score. *)
Theorem score_depends_on_reported_names_only
  (pod : v1.Pod) (imgs1 imgs2 : list v1.ContainerImage) (name1 name2 : string)
  (Hsame : forall name,
     name ∈ reported_names imgs1 <-> name ∈ reported_names imgs2) :
  nodeHasImage pod imgs1 name1 = nodeHasImage pod imgs2 name2.
Proof.
  apply score_of_match_iff. intros c. rewrite !has_match_names.
  split; intros (name & Hin & Hsub); exists name; split; try done;
    by apply Hsame.
Qed.

Lemma score_depends_on_reported_names_only_witness :
  nodeHasImage (pod_of [container_of "nginx"; container_of "redis"])
    [image_of ["nginx:latest"; "redis:6"]] "a" =
  nodeHasImage (pod_of [container_of "nginx"; container_of "redis"])
    [image_of ["redis:6"]; image_of []; image_of ["nginx:latest"; "redis:6"]] "b".
Proof.
  apply score_depends_on_reported_names_only.
  intros name. cbn. rewrite !elem_of_cons, !elem_of_nil. tauto.
Defined.

(** X2. The score does not depend on the order of the pod's containers. *)
Theorem score_invariant_under_container_order
  (pod : v1.Pod) (cs : list v1.Container)
  (nodeImages : list v1.ContainerImage) (nodeName : string)
  (Hperm : containers pod ≡ₚ cs) :
  nodeHasImage pod nodeImages nodeName =
  nodeHasImage (with_containers pod cs) nodeImages nodeName.
Proof.
  rewrite !nodeHasImage_spec. unfold with_containers, containers in *.
  cbn [v1.Spec v1.Containers]. by rewrite Hperm.
Qed.

Lemma score_invariant_under_container_order_witness :
  nodeHasImage (pod_of [container_of "nginx"; container_of "redis"])
    [image_of ["nginx:latest"]] "node" =
  nodeHasImage (pod_of [container_of "redis"; container_of "nginx"])
    [image_of ["nginx:latest"]] "node".
Proof.
  apply (score_invariant_under_container_order
           (pod_of [container_of "nginx"; container_of "redis"])
           [container_of "redis"; container_of "nginx"]).
  apply perm_swap.
Defined.

Lemma length_filter_zero {A} (P : A -> Prop) `{!∀ x, Decision (P x)}
  (l : list A) :
  length (filter P l) = 0%nat <-> Forall (fun x => ~ P x) l.
Proof.
  induction l as [|x l IH]; [by split |].
  rewrite Forall_cons. destruct (decide (P x)) as [HP|HP].
  - rewrite filter_cons_True by done. simpl. split; [discriminate | tauto].
  - rewrite filter_cons_False by done. rewrite IH. tauto.
Qed.

Lemma length_filter_full {A} (P : A -> Prop) `{!∀ x, Decision (P x)}
  (l : list A) :
  length (filter P l) = length l <-> Forall P l.
Proof.
  induction l as [|x l IH]; [by split |].
  rewrite Forall_cons. destruct (decide (P x)) as [HP|HP].
  - rewrite filter_cons_True by done. simpl. rewrite <- IH. split; [| lia].
    intros Heq. split; [done | lia].
  - rewrite filter_cons_False by done. simpl.
    pose proof (length_filter P l). split; [lia | tauto].
Qed.

Lemma single_container_score (pod : v1.Pod) (c : v1.Container)
  (nodeImages : list v1.ContainerImage) (nodeName : string) :
  nodeHasImage (with_containers pod [c]) nodeImages nodeName =
  if decide (has_match nodeImages c) then 1 else 0.
Proof.
  rewrite nodeHasImage_spec. unfold with_containers, containers.
  cbn [v1.Spec v1.Containers].
  destruct (decide (has_match nodeImages c)).
  - by rewrite filter_cons_True.
  - by rewrite filter_cons_False.
Qed.

(** X3. For a pod with fewer than [2^32] containers, a node that reports
    every name another node reports scores at least as much: reporting more
    images or aliases never lowers the score. *)
Theorem more_reported_names_never_lower_the_score
  (pod : v1.Pod) (imgs1 imgs2 : list v1.ContainerImage) (name1 name2 : string)
  (Hlen : Z.of_nat (length (containers pod)) < 2 ^ 32)
  (Hsub : forall name,
     name ∈ reported_names imgs1 -> name ∈ reported_names imgs2) :
  nodeHasImage pod imgs1 name1 <= nodeHasImage pod imgs2 name2.
Proof.
  rewrite !nodeHasImage_exact by done.
  apply Nat2Z.inj_le, length_filter_impl. intros c.
  rewrite !has_match_names. intros (name & Hin & Hs). exists name. auto.
Qed.

Lemma more_reported_names_never_lower_the_score_witness :
  nodeHasImage (pod_of [container_of "nginx"; container_of "redis"])
    [image_of ["nginx:latest"]] "a" <=
  nodeHasImage (pod_of [container_of "nginx"; container_of "redis"])
    [image_of ["redis:6"]; image_of ["nginx:latest"]] "b".
Proof.
  apply more_reported_names_never_lower_the_score.
  - cbn. lia.
  - intros name. cbn. rewrite !elem_of_cons, !elem_of_nil. tauto.
Defined.

(** X4. The score of a pod whose containers are two lists put together is
    the sum of the scores of the two parts, as a [uint32]. *)
Theorem score_adds_over_container_lists
  (pod : v1.Pod) (cs1 cs2 : list v1.Container)
  (nodeImages : list v1.ContainerImage) (nodeName : string) :
  nodeHasImage (with_containers pod (cs1 ++ cs2)) nodeImages nodeName =
  (nodeHasImage (with_containers pod cs1) nodeImages nodeName
   + nodeHasImage (with_containers pod cs2) nodeImages nodeName) mod 2 ^ 32.
Proof.
  rewrite !nodeHasImage_spec. unfold with_containers, containers, wrap32.
  cbn [v1.Spec v1.Containers].
  rewrite filter_app, length_app, Nat2Z.inj_add.
  apply Zplus_mod.
Qed.

(** X5. A node whose image records carry no name scores 0 for every pod,
    although its image list is not empty and the containers are scanned. *)
Theorem records_without_names_score_zero
  (pod : v1.Pod) (nodeImages : list v1.ContainerImage) (nodeName : string)
  (Hnames : Forall (fun img => v1.Names img = []) nodeImages) :
  nodeHasImage pod nodeImages nodeName = 0.
Proof.
  rewrite nodeHasImage_spec.
  replace (filter (has_match nodeImages) (containers pod)) with
    (@nil v1.Container); [done |].
  symmetry. apply length_zero_iff_nil, length_filter_zero, Forall_forall.
  intros c _ (img & name & Himg & Hname & _).
  rewrite Forall_forall in Hnames. rewrite (Hnames img Himg) in Hname.
  by apply elem_of_nil in Hname.
Qed.

Lemma records_without_names_score_zero_witness :
  nodeHasImage (pod_of [container_of EmptyString; container_of "nginx"])
    [image_of []; image_of []] "node" = 0.
Proof.
  apply records_without_names_score_zero.
  repeat constructor.
Defined.

(** X6. For a pod with fewer than [2^32] containers the score is 0 exactly
    when no container has a match, and it equals the number of containers
    exactly when every container has one. *)
Theorem zero_and_full_score
  (pod : v1.Pod) (nodeImages : list v1.ContainerImage) (nodeName : string)
  (Hlen : Z.of_nat (length (containers pod)) < 2 ^ 32) :
  (nodeHasImage pod nodeImages nodeName = 0 <->
   Forall (fun c => ~ has_match nodeImages c) (containers pod))
  /\ (nodeHasImage pod nodeImages nodeName = Z.of_nat (length (containers pod)) <->
      Forall (has_match nodeImages) (containers pod)).
Proof.
  rewrite nodeHasImage_exact by done. split.
  - rewrite <- length_filter_zero. apply (Nat2Z.inj_iff _ 0%nat).
  - rewrite <- length_filter_full. apply Nat2Z.inj_iff.
Qed.

Lemma zero_and_full_score_witness :
  nodeHasImage (pod_of [container_of "nginx"; container_of "redis"])
    [image_of ["nginx:latest"]; image_of ["redis:6"]] "node" = 2.
Proof.
  apply (zero_and_full_score
           (pod_of [container_of "nginx"; container_of "redis"])
           [image_of ["nginx:latest"]; image_of ["redis:6"]] "node").
  - cbn. lia.
  - repeat constructor; by apply has_matchb_spec.
Defined.

(** X7. The substring test favours short references: when a container's
    image reference scores on a node, so does every reference contained in
    it. *)
Theorem contained_reference_scores_too
  (pod : v1.Pod) (c1 c2 : v1.Container)
  (nodeImages : list v1.ContainerImage) (nodeName : string)
  (Hsub : is_substring (v1.Image c1) (v1.Image c2))
  (Hscore : nodeHasImage (with_containers pod [c2]) nodeImages nodeName = 1) :
  nodeHasImage (with_containers pod [c1]) nodeImages nodeName = 1.
Proof.
  rewrite single_container_score in *.
  destruct (decide (has_match nodeImages c2)) as [H2|]; [| discriminate].
  rewrite decide_True; [done |].
  destruct H2 as (img & name & Himg & Hname & Hs).
  exists img, name. eauto using is_substring_trans.
Qed.

Lemma contained_reference_scores_too_witness :
  nodeHasImage (pod_of [container_of "nginx"])
    [image_of ["docker.io/library/nginx:1.7.9"]] "node" = 1.
Proof.
  apply (contained_reference_scores_too
           (pod_of []) (container_of "nginx") (container_of "nginx:1.7.9")).
  - by exists EmptyString, ":1.7.9".
  - reflexivity.
Defined.

(** X8. The entry of a node does not depend on the other nodes of the
    request: scoring two node lists put together gives the two score lists
    put together. *)
Theorem image_score_of_appended_node_lists
  (pod : v1.Pod) (nodes1 nodes2 : list v1.Node) :
  image_score pod (nodes1 ++ nodes2) =
  image_score pod nodes1 ++ image_score pod nodes2.
Proof. rewrite !image_score_spec. apply fmap_app. Qed.

(** * Further properties of the handler and of start-up *)

Lemma string_app_inj (s t u : string) : s +:+ t = s +:+ u -> t = u.
Proof.
  induction s as [|a s IH]; [done |].
  rewrite !append_cons. intros H. apply IH. by injection H.
Qed.

Lemma prefix_app (pre s t : string) :
  String.prefix pre s = true -> String.prefix pre (s +:+ t) = true.
Proof.
  rewrite !prefix_spec. intros [post ->]. exists (post +:+ t).
  apply string_app_assoc.
Qed.

Section HandlerProperties.

Variable Decode : string -> error + schedulingapi.ExtenderArgs.
Variable Marshal : option schedulingapi.HostPriorityList -> error + string.

(** The response of a successful request. *)
Lemma reply_200 (w : http.ResponseWriter) (out : string) :
  http.status w = None ->
  let w' := http.Write
              (http.WriteHeader
                 (http.Header_Set w "Content-Type" "application/json")
                 http.StatusOK) out in
  http.status w' = Some 200
  /\ http.Header w' !! "Content-Type" = Some "application/json"
  /\ http.written w' = http.written w +:+ out.
Proof.
  intros Hfresh. unfold http.Write, http.WriteHeader. cbn. rewrite Hfresh. cbn.
  repeat split. apply lookup_insert_eq.
Qed.

(** X9. When the body decodes, both pointers of the arguments are set, the
    method returns a nil error and the result encodes, the handler returns
    normally with status 200, content type [application/json] and the
    encoded result as the body. *)
Theorem well_formed_request_gets_200
  (priorityMethod : PrioritizeMethod) (w : http.ResponseWriter)
  (r : http.Request) (ps : httprouter.Params) (body out : string)
  (args : schedulingapi.ExtenderArgs) (pod : v1.Pod) (nl : v1.NodeList)
  (list : option schedulingapi.HostPriorityList)
  (Hfresh : http.status w = None)
  (Hbody : http.Body r = Some body)
  (Hdecode : Decode body = inr args)
  (Hpod : schedulingapi.Pod args = Some pod)
  (Hnodes : schedulingapi.Nodes args = Some nl)
  (Hfunc : Func priorityMethod pod (v1.Items nl) = (list, None))
  (Hmarshal : Marshal list = inr out) :
  let res := PrioritizeRoute Decode Marshal priorityMethod w r ps in
  res.2 = Ret tt
  /\ http.status res.1 = Some 200
  /\ http.Header res.1 !! "Content-Type" = Some "application/json"
  /\ http.written res.1 = http.written w +:+ out.
Proof.
  intros res. subst res. unfold PrioritizeRoute, score_body, Handler.
  rewrite (checkRequestBody_present w r body Hbody), Hbody. cbn.
  rewrite Hdecode. cbn. rewrite Hpod, Hnodes. cbn. rewrite Hfunc. cbn.
  rewrite Hmarshal. cbn [negb fst snd].
  split; [done |]. by apply reply_200.
Qed.

(** X10. When the method returns an error the handler panics with that
    error and leaves the response untouched, whatever list came with the
    error and whatever the encoder would do. *)
Theorem scoring_error_panics
  (priorityMethod : PrioritizeMethod) (w : http.ResponseWriter)
  (r : http.Request) (ps : httprouter.Params) (body : string)
  (args : schedulingapi.ExtenderArgs) (pod : v1.Pod) (nl : v1.NodeList)
  (list : option schedulingapi.HostPriorityList) (err : error)
  (Hbody : http.Body r = Some body)
  (Hdecode : Decode body = inr args)
  (Hpod : schedulingapi.Pod args = Some pod)
  (Hnodes : schedulingapi.Nodes args = Some nl)
  (Hfunc : Func priorityMethod pod (v1.Items nl) = (list, Some err)) :
  PrioritizeRoute Decode Marshal priorityMethod w r ps =
  (w, Panic (PanicError err)).
Proof.
  unfold PrioritizeRoute, score_body, Handler.
  rewrite (checkRequestBody_present w r body Hbody), Hbody. cbn.
  rewrite Hdecode. cbn. rewrite Hpod, Hnodes. cbn. by rewrite Hfunc.
Qed.

(** X11. When the result of the method does not encode, the handler
    panics with the encoder's error and leaves the response untouched. *)
Theorem encoding_error_panics
  (priorityMethod : PrioritizeMethod) (w : http.ResponseWriter)
  (r : http.Request) (ps : httprouter.Params) (body : string)
  (args : schedulingapi.ExtenderArgs) (pod : v1.Pod) (nl : v1.NodeList)
  (list : option schedulingapi.HostPriorityList) (err : error)
  (Hbody : http.Body r = Some body)
  (Hdecode : Decode body = inr args)
  (Hpod : schedulingapi.Pod args = Some pod)
  (Hnodes : schedulingapi.Nodes args = Some nl)
  (Hfunc : Func priorityMethod pod (v1.Items nl) = (list, None))
  (Hmarshal : Marshal list = inl err) :
  PrioritizeRoute Decode Marshal priorityMethod w r ps =
  (w, Panic (PanicError err)).
Proof.
  unfold PrioritizeRoute, score_body, Handler.
  rewrite (checkRequestBody_present w r body Hbody), Hbody. cbn.
  rewrite Hdecode. cbn. rewrite Hpod, Hnodes. cbn. rewrite Hfunc. cbn.
  by rewrite Hmarshal.
Qed.

(** X12. When the body decodes but leaves the pod or the node list unset,
    the handler panics on the nil pointer and leaves the response untouched;
    the method is not applied. *)
Theorem missing_pod_or_nodes_panics
  (priorityMethod : PrioritizeMethod) (w : http.ResponseWriter)
  (r : http.Request) (ps : httprouter.Params) (body : string)
  (args : schedulingapi.ExtenderArgs)
  (Hbody : http.Body r = Some body)
  (Hdecode : Decode body = inr args)
  (Hnil : schedulingapi.Pod args = None \/ schedulingapi.Nodes args = None) :
  PrioritizeRoute Decode Marshal priorityMethod w r ps =
  (w, Panic NilDereference).
Proof.
  unfold PrioritizeRoute, score_body, Handler.
  rewrite (checkRequestBody_present w r body Hbody), Hbody. cbn.
  rewrite Hdecode. cbn.
  destruct Hnil as [-> | ->]; cbn; [done |].
  by destruct (schedulingapi.Pod args).
Qed.

(** X13. The handler writes a whole reply or none: it returns normally
    after the 400 reply or after the 200 reply with an encoded result, or it
    panics with the response as it found it. *)
Theorem handler_replies_or_panics_cleanly
  (priorityMethod : PrioritizeMethod) (w : http.ResponseWriter)
  (r : http.Request) (ps : httprouter.Params) :
  let res := PrioritizeRoute Decode Marshal priorityMethod w r ps in
  (http.Body r = None
   /\ res = (http.Error w empty_request_message 400, Ret tt))
  \/ (exists out,
        res = (http.Write
                 (http.WriteHeader
                    (http.Header_Set w "Content-Type" "application/json")
                    http.StatusOK) out, Ret tt))
  \/ (exists v, res = (w, Panic v)).
Proof.
  intros res. subst res. unfold PrioritizeRoute, checkRequestBody.
  destruct (http.Body r) as [body|] eqn:Hbody; cbn; [| by left].
  right. destruct (score_body Decode Marshal priorityMethod r) as [out|v].
  - left. by exists out.
  - right. by exists v.
Qed.

End HandlerProperties.

Lemma well_formed_request_gets_200_witness :
  http.status
    (PrioritizeRoute
       (fun _ => inr {| schedulingapi.Pod := Some (pod_of [container_of "nginx"]);
                        schedulingapi.Nodes := Some {| v1.Items := [] |};
                        schedulingapi.NodeNames := None |})
       (fun _ => inr "[]")
       ImagePriority http.NewResponse {| http.Body := Some "{}" |} []).1
  = Some 200.
Proof.
  refine (proj1 (proj2 (well_formed_request_gets_200
    (fun _ => inr {| schedulingapi.Pod := Some (pod_of [container_of "nginx"]);
                     schedulingapi.Nodes := Some {| v1.Items := [] |};
                     schedulingapi.NodeNames := None |})
    (fun _ => inr "[]")
    ImagePriority http.NewResponse {| http.Body := Some "{}" |} []
    "{}" "[]" _ (pod_of [container_of "nginx"]) {| v1.Items := [] |} _
    eq_refl eq_refl eq_refl eq_refl eq_refl eq_refl eq_refl))).
Defined.

Lemma scoring_error_panics_witness :
  PrioritizeRoute
    (fun _ => inr {| schedulingapi.Pod := Some (pod_of []);
                     schedulingapi.Nodes := Some {| v1.Items := [] |};
                     schedulingapi.NodeNames := None |})
    (fun _ => inr "[]")
    {| Name := "failing";
       Func := fun _ _ => (Some [], Some {| Error := "no score" |}) |}
    http.NewResponse {| http.Body := Some "{}" |} []
  = (http.NewResponse, Panic (PanicError {| Error := "no score" |})).
Proof.
  refine (scoring_error_panics
    (fun _ => inr {| schedulingapi.Pod := Some (pod_of []);
                     schedulingapi.Nodes := Some {| v1.Items := [] |};
                     schedulingapi.NodeNames := None |})
    (fun _ => inr "[]")
    {| Name := "failing";
       Func := fun _ _ => (Some [], Some {| Error := "no score" |}) |}
    http.NewResponse {| http.Body := Some "{}" |} []
    "{}" _ (pod_of []) {| v1.Items := [] |} (Some []) _
    eq_refl eq_refl eq_refl eq_refl eq_refl).
Defined.

Lemma encoding_error_panics_witness :
  PrioritizeRoute
    (fun _ => inr {| schedulingapi.Pod := Some (pod_of []);
                     schedulingapi.Nodes := Some {| v1.Items := [] |};
                     schedulingapi.NodeNames := None |})
    (fun _ => inl {| Error := "unsupported value" |})
    ImagePriority http.NewResponse {| http.Body := Some "{}" |} []
  = (http.NewResponse, Panic (PanicError {| Error := "unsupported value" |})).
Proof.
  refine (encoding_error_panics
    (fun _ => inr {| schedulingapi.Pod := Some (pod_of []);
                     schedulingapi.Nodes := Some {| v1.Items := [] |};
                     schedulingapi.NodeNames := None |})
    (fun _ => inl {| Error := "unsupported value" |})
    ImagePriority http.NewResponse {| http.Body := Some "{}" |} []
    "{}" _ (pod_of []) {| v1.Items := [] |} _ _
    eq_refl eq_refl eq_refl eq_refl eq_refl eq_refl).
Defined.

Lemma missing_pod_or_nodes_panics_witness :
  PrioritizeRoute
    (fun _ => inr {| schedulingapi.Pod := None;
                     schedulingapi.Nodes := None;
                     schedulingapi.NodeNames := None |})
    (fun _ => inr "[]")
    ImagePriority http.NewResponse {| http.Body := Some "{}" |} []
  = (http.NewResponse, Panic NilDereference).
Proof.
  refine (missing_pod_or_nodes_panics
    (fun _ => inr {| schedulingapi.Pod := None;
                     schedulingapi.Nodes := None;
                     schedulingapi.NodeNames := None |})
    (fun _ => inr "[]")
    ImagePriority http.NewResponse {| http.Body := Some "{}" |} []
    "{}" _ eq_refl eq_refl (or_introl eq_refl)).
Defined.

(** ** Start-up *)

(** X14. After [init] the bind address contains a colon: a flag value
    with a colon is kept, any other gets a colon in front. *)
Theorem bind_address_has_a_colon (f : Flags) :
  strings.Contains (httpAddr (init f)) ":" = true
  /\ httpAddr (init f) =
     if strings.Contains (flag_http_addr f) ":" then flag_http_addr f
     else ":" +:+ flag_http_addr f.
Proof.
  unfold init, add_missing. cbn [httpAddr].
  destruct (strings.Contains (flag_http_addr f) ":") eqn:E; cbn [negb].
  - by split.
  - split; [| done]. apply Contains_spec.
    by exists EmptyString, (flag_http_addr f).
Qed.

(** X15. Whatever the flags and the router are, the path that start-up
    hands to [POST] for a method begins with a slash and with the api
    prefix. *)
Theorem registered_paths_begin_with_slash
  (Decode : string -> error + schedulingapi.ExtenderArgs)
  (Marshal : option schedulingapi.HostPriorityList -> error + string)
  (R : httprouter.Impl) (f : Flags) (router : httprouter.Router R)
  (m : PrioritizeMethod) :
  AddPrioritizeFunc Decode Marshal R (init f) router m =
    httprouter.POST R router (route_path (init f) m)
      (PrioritizeRoute Decode Marshal m)
  /\ strings.HasPrefix (route_path (init f) m) "/" = true
  /\ strings.HasPrefix (route_path (init f) m) (apiPrefix (init f)) = true.
Proof.
  split; [done |]. rewrite route_path_init. unfold strings.HasPrefix. split.
  - apply prefix_app, with_leading_slash_prefix.
  - unfold init. cbn [apiPrefix]. rewrite add_missing_slash. apply prefix_here.
Qed.

(** X16. The paths that start-up hands to [POST] for two methods are the
    same exactly when the methods have the same name. *)
Theorem route_paths_distinct_iff_names_distinct
  (Decode : string -> error + schedulingapi.ExtenderArgs)
  (Marshal : option schedulingapi.HostPriorityList -> error + string)
  (R : httprouter.Impl) (g : Globals) :
  (forall (router : httprouter.Router R) (m : PrioritizeMethod),
     AddPrioritizeFunc Decode Marshal R g router m =
     httprouter.POST R router (route_path g m)
       (PrioritizeRoute Decode Marshal m))
  /\ (forall m1 m2 : PrioritizeMethod,
        route_path g m1 = route_path g m2 <-> Name m1 = Name m2).
Proof.
  split; [done |]. intros m1 m2. unfold route_path. split.
  - intros H. by apply string_app_inj, string_app_inj in H.
  - by intros ->.
Qed.

Lemma nil_body_gets_400_witness :
  PrioritizeRoute (fun _ => inl {| Error := "EOF" |}) (fun _ => inr "[]")
    ImagePriority http.NewResponse {| http.Body := None |} []
  = (http.Error http.NewResponse empty_request_message 400, Ret tt).
Proof.
  refine (proj1 (nil_body_gets_400
    (fun _ => inl {| Error := "EOF" |}) (fun _ => inr "[]")
    ImagePriority http.NewResponse {| http.Body := None |} []
    eq_refl eq_refl)).
Defined.
